(** * scripts/launch_agent_python.py

    A shallow embedding of the example launcher script: the class
    [MyAgent] (constructor, [assist], [launch]) and the entry point
    [main], run against an explicit Python world made of an object
    heap, the text written to standard output and the identifier
    generator of the [ulid] package.  The two methods are also run on
    Python's own text, a str of code points that the stream encodes. *)

From Stdlib Require Import Ascii.
From stdpp Require Import base option list gmap strings fin_maps.

(** ** Values and objects *)

(** Heap addresses: what a Python reference points at. *)
Definition loc := nat.

(** The Python values the script handles. *)
Inductive Val :=
| VNone
| VStr (s : string)
| VRef (l : loc).

Global Instance Val_eq_dec : EqDecision Val.
Proof. solve_decision. Defined.

(** Modelled from the spec: the collaborator types of the external
    framework (sentient_agent_framework), which the script imports and only
    constructs.  An Identity is "constructible from an id and a name", a
    Hook "from an ordered sequence of registrations", a ResponseHandler is
    "bound to one Identity and one Hook at construction".  Each is kept as
    the constructor call that built it, holding the arguments it was given. *)
Inductive Obj :=
| Identity (id name : string)
| DefaultHook (registrations : list Val)
| DefaultResponseHandler (source hook : Val)
| Instance (cls : string) (dict : gmap string Val).

(** The exceptions the model can raise. *)
Inductive Exn :=
| AttributeError (self : loc) (attr : string)
| UnicodeEncodeError (start : nat).

(** ** The world and the monad of Python computations *)

Record World := mkWorld {
  heap : list Obj;          (* allocated objects, by address *)
  stdout : string;          (* everything written to sys.stdout so far *)
  ulid_pool : nat → string; (* the identifier the n-th draw of the run gives *)
  ulid_calls : nat          (* identifiers drawn from the generator so far *)
}.

Inductive Outcome (A : Type) :=
| Returned (v : A)
| Raised (e : Exn).
Arguments Returned {A} v.
Arguments Raised {A} e.

Definition Py (A : Type) : Type := World → Outcome A * World.

Global Instance Py_ret : MRet Py := λ A v w, (Returned v, w).

Global Instance Py_bind : MBind Py := λ A B k m w,
  match m w with
  | (Returned v, w') => k v w'
  | (Raised e, w') => (Raised e, w')
  end.

Definition outcome {A} (m : Py A) (w : World) : Outcome A := (m w).1.
Definition exec {A} (m : Py A) (w : World) : World := (m w).2.

(** The line terminator that [print] writes. *)
Definition LF : ascii := "010"%char.

(** print(s): the text, then the line terminator. *)
Definition print (s : string) : Py unit :=
  λ w, (Returned tt,
        mkWorld (heap w) (stdout w +:+ s +:+ String LF "")
                (ulid_pool w) (ulid_calls w)).

(** Allocation of a new object; its address is the next free one. *)
Definition alloc (o : Obj) : Py loc :=
  λ w, (Returned (length (heap w)),
        mkWorld (heap w ++ [o]) (stdout w) (ulid_pool w) (ulid_calls w)).

(** self.attr = v *)
Definition setattr (self : loc) (attr : string) (v : Val) : Py unit :=
  λ w, match heap w !! self with
       | Some (Instance cls dict) =>
           (Returned tt,
            mkWorld (<[self := Instance cls (<[attr := v]> dict)]> (heap w))
                    (stdout w) (ulid_pool w) (ulid_calls w))
       | _ => (Raised (AttributeError self attr), w)
       end.

(** The attribute dictionary entry that [self.attr] reads. *)
Definition attr (w : World) (self : loc) (a : string) : option Val :=
  match heap w !! self with
  | Some (Instance _ dict) => dict !! a
  | _ => None
  end.

(** self.attr *)
Definition getattr (self : loc) (a : string) : Py Val :=
  λ w, match attr w self a with
       | Some v => (Returned v, w)
       | None => (Raised (AttributeError self a), w)
       end.

(** Modelled from the spec: the [ulid] package, "a unique-identifier
    generator exposing a new-identifier operation returning a string".
    ulid.new().str gives the next identifier of the run, as text, and
    moves the generator on. *)
Definition ulid_new_str : Py string :=
  λ w, (Returned (ulid_pool w (ulid_calls w)),
        mkWorld (heap w) (stdout w) (ulid_pool w) (S (ulid_calls w))).

(** ** The script *)

Module AbstractAgent.

(** Modelled from the spec: the constructor of the base class
    AbstractAgent of the external framework.  It is what makes the agent a
    "named entity": it keeps the name it is given in the attribute
    [name]. *)
Definition __init__ (self : loc) (name : string) : Py Val :=
  setattr self "name" (VStr name);;
  mret VNone.

End AbstractAgent.

(** class MyAgent(AbstractAgent) *)
Module MyAgent.

(** def __init__(self, name) *)
Definition __init__ (self : loc) (name : string) : Py Val :=
  AbstractAgent.__init__ self name;;
  hook ← alloc (DefaultHook []);
  setattr self "hook" (VRef hook);;
  id ← ulid_new_str;
  source ← alloc (Identity id name);
  setattr self "source" (VRef source);;
  self_source ← getattr self "source";
  self_hook ← getattr self "hook";
  handler ← alloc (DefaultResponseHandler self_source self_hook);
  setattr self "response_handler" (VRef handler);;
  mret VNone.

(** The call MyAgent(name): a new instance with an empty attribute
    dictionary, initialised by [__init__], is the value of the call. *)
Definition new (name : string) : Py loc :=
  self ← alloc (Instance "MyAgent" ∅);
  __init__ self name;;
  mret self.

(** def assist(self, query) *)
Definition assist (self : loc) (query : string) : Py Val :=
  print ("Assisting with query: " +:+ query);;
  mret VNone.

(** def launch(self) *)
Definition launch (self : loc) : Py Val :=
  print "Agent launched";;
  mret VNone.

End MyAgent.

(** def main() *)
Definition main : Py Val :=
  agent ← MyAgent.new "MyAgent";
  MyAgent.launch agent;;
  mret VNone.

(** The script run as a program: the interpreter is given the command
    line [argv], runs [main] under the __main__ guard and exits with
    status 0 when it returns, 1 when an exception escapes. *)
Definition run_script (argv : list string) (w : World) : nat * World :=
  match main w with
  | (Returned _, w') => (0, w')
  | (Raised _, w') => (1, w')
  end.

(** The world a fresh interpreter starts in, for a given generator. *)
Definition initial_world (pool : nat → string) : World :=
  mkWorld [] "" pool 0.

(** ** Reading standard output as lines *)

(** The lines of a text: every line feed ends one; text after the last
    line feed is a last, unterminated line. *)
Fixpoint lines_from (cur s : string) : list string :=
  match s with
  | EmptyString => match cur with EmptyString => [] | _ => [cur] end
  | String c s' =>
      if Ascii.eqb c LF then cur :: lines_from "" s'
      else lines_from (cur +:+ String c "") s'
  end.

Definition lines (s : string) : list string := lines_from "" s.

(** Number of line feeds of a text. *)
Fixpoint count_LF (s : string) : nat :=
  match s with
  | EmptyString => 0
  | String c s' => (if Ascii.eqb c LF then 1 else 0) + count_LF s'
  end.


(** A sample generator, for running the script: the n-th identifier is
    "ID" followed by n marks. *)
Fixpoint sample_ulid (n : nat) : string :=
  match n with
  | 0 => "ID"
  | S k => sample_ulid k +:+ "'"
  end.

Definition sample_world : World := initial_world sample_ulid.


(** ** Who refers to what *)

Definition val_refs (v : Val) : list loc :=
  match v with
  | VRef l => [l]
  | _ => []
  end.

(** The addresses an object keeps a reference to. *)
Definition refs_of (o : Obj) : list loc :=
  match o with
  | Identity _ _ => []
  | DefaultHook registrations => registrations ≫= val_refs
  | DefaultResponseHandler source hook => val_refs source ++ val_refs hook
  | Instance _ dict => (map_to_list dict).*2 ≫= val_refs
  end.

(** The object at address [k] keeps a reference to address [l]. *)
Definition holds_ref (h : list Obj) (k l : loc) : Prop :=
  ∃ o, h !! k = Some o ∧ l ∈ refs_of o.

Global Instance holds_ref_dec h k l : Decision (holds_ref h k l).
Proof.
  unfold holds_ref. destruct (h !! k) as [o|] eqn:E.
  - destruct (decide (l ∈ refs_of o)) as [Hin|Hout].
    + left. by exists o.
    + right. intros (o' & [= <-] & Hin). by apply Hout.
  - right. by intros (o' & [=] & _).
Defined.

(** All the addresses whose object keeps a reference to [l]. *)
Definition holders (h : list Obj) (l : loc) : list loc :=
  filter (λ k, holds_ref h k l) (seq 0 (length h)).

(** No object refers to an address that is not allocated. *)
Definition heap_closed (h : list Obj) : Prop :=
  Forall (λ o, Forall (λ l, l < length h) (refs_of o)) h.

Global Instance heap_closed_dec h : Decision (heap_closed h).
Proof. unfold heap_closed. apply _. Defined.

(** The Identity of an agent: what its attribute [source] points at. *)
Definition identity_of (w : World) (self : loc) : option (string * string) :=
  match attr w self "source" with
  | Some (VRef l) =>
      match heap w !! l with
      | Some (Identity id name) => Some (id, name)
      | _ => None
      end
  | _ => None
  end.

(** Modelled from the spec: the contract of the identifier generator
    ("non-empty and unique"): an identifier is never empty and no
    identifier is issued twice. *)
Definition ulid_contract (pool : nat → string) : Prop :=
  (∀ n, pool n ≠ "") ∧ (∀ m n, m ≠ n → pool m ≠ pool n).

(** The attribute dictionary and the three collaborators that the
    constructor leaves behind, for an agent allocated at address [n]. *)
Definition agent_dict (n : loc) (name : string) : gmap string Val :=
  <["response_handler" := VRef (n + 3)]>
    (<["source" := VRef (n + 2)]>
       (<["hook" := VRef (n + 1)]>
          (<["name" := VStr name]> ∅))).

Definition agent_objs (n : loc) (id name : string) : list Obj :=
  [ Instance "MyAgent" (agent_dict n name);
    DefaultHook [];
    Identity id name;
    DefaultResponseHandler (VRef (n + 2)) (VRef (n + 1)) ].

(** ** Text as Python has it *)

(** A Python str is a sequence of code points, each at most 0x10FFFF;
    [sys.stdout] encodes it when [print] writes it.  Above, a text is what
    the stream receives, the encoded bytes; here the methods are run on
    the str itself, for the UTF-8 stream of the interpreter. *)
Definition str := list N.

(** The str of a literal of the source, whose characters are ASCII. *)
Definition codepoints (s : string) : str :=
  N_of_ascii <$> String.list_ascii_of_string s.

(** The code points that UTF-8 can carry: all but the surrogates. *)
Definition scalar (c : N) : bool :=
  (c <? 0xD800)%N || ((0xDFFF <? c)%N && (c <? 0x110000)%N).

(** The UTF-8 bytes of one code point. *)
Definition utf8_char (c : N) : option string :=
  if (c <? 0x80)%N then
    Some (String (ascii_of_N c) "")
  else if (c <? 0x800)%N then
    Some (String (ascii_of_N (0xC0 + c / 0x40))
         (String (ascii_of_N (0x80 + c mod 0x40)) ""))
  else if (c <? 0x10000)%N then
    if (0xD800 <=? c)%N && (c <=? 0xDFFF)%N then None
    else
      Some (String (ascii_of_N (0xE0 + c / 0x1000))
           (String (ascii_of_N (0x80 + (c / 0x40) mod 0x40))
           (String (ascii_of_N (0x80 + c mod 0x40)) "")))
  else if (c <? 0x110000)%N then
    Some (String (ascii_of_N (0xF0 + c / 0x40000))
         (String (ascii_of_N (0x80 + (c / 0x1000) mod 0x40))
         (String (ascii_of_N (0x80 + (c / 0x40) mod 0x40))
         (String (ascii_of_N (0x80 + c mod 0x40)) ""))))
  else None.

(** The stream's encoder, strict: the bytes of the text, or the position
    of the first code point that cannot be encoded. *)
Fixpoint utf8_encode_from (pos : nat) (t : str) : string + nat :=
  match t with
  | [] => inl ""
  | c :: t' =>
      match utf8_char c with
      | None => inr pos
      | Some b =>
          match utf8_encode_from (S pos) t' with
          | inl s => inl (b +:+ s)
          | inr e => inr e
          end
      end
  end.

Definition utf8_encode (t : str) : string + nat := utf8_encode_from 0 t.

(** print(t) on a str: the stream encodes the whole text before it
    writes; when it cannot, print raises UnicodeEncodeError and nothing
    is written. *)
Definition print_str (t : str) : Py unit :=
  λ w, match utf8_encode t with
       | inl s => print s w
       | inr start => (Raised (UnicodeEncodeError start), w)
       end.

(** The two methods on str. *)
Module OnStr.

(** def assist(self, query) *)
Definition assist (self : loc) (query : str) : Py Val :=
  print_str (codepoints "Assisting with query: " ++ query);;
  mret VNone.

(** def launch(self) *)
Definition launch (self : loc) : Py Val :=
  print_str (codepoints "Agent launched");;
  mret VNone.

End OnStr.

(** ** Calling the methods in sequence *)

(** A method call on an agent: agent.assist(query) or agent.launch(). *)
Inductive Call :=
| Assist (query : string)
| Launch.

Definition call (self : loc) (c : Call) : Py Val :=
  match c with
  | Assist query => MyAgent.assist self query
  | Launch => MyAgent.launch self
  end.

(** The calls of a list, one statement after the other. *)
Fixpoint calls (self : loc) (cs : list Call) : Py Val :=
  match cs with
  | [] => mret VNone
  | c :: cs' => call self c;; calls self cs'
  end.

(** The line a call is meant to show, without its terminator. *)
Definition call_line (c : Call) : string :=
  match c with
  | Assist query => "Assisting with query: " +:+ query
  | Launch => "Agent launched"
  end.

(** What a sequence of calls writes: the text of each call and its
    terminator, in order. *)
Fixpoint calls_text (cs : list Call) : string :=
  match cs with
  | [] => ""
  | c :: cs' => call_line c +:+ String LF (calls_text cs')
  end.

(** A call writes one line when its query has no line feed in it;
    launch() always does. *)
Definition single_line_call (c : Call) : Prop :=
  match c with
  | Assist query => count_LF query = 0
  | Launch => True
  end.

Global Instance single_line_call_dec c : Decision (single_line_call c).
Proof. destruct c; simpl; apply _. Defined.



(** ** Running the primitives *)

Section Primitives.

Context {A B : Type}.

Lemma bind_returned (m : Py A) (k : A → Py B) w v w' :
  m w = (Returned v, w') → (m ≫= k) w = k v w'.
Proof. intros E. unfold mbind, Py_bind. by rewrite E. Qed.

Lemma bind_raised (m : Py A) (k : A → Py B) w e w' :
  m w = (Raised e, w') → (m ≫= k) w = (Raised e, w').
Proof. intros E. unfold mbind, Py_bind. by rewrite E. Qed.

End Primitives.

Lemma heap_lookup_new (h objs : list Obj) k :
  (h ++ objs) !! (length h + k) = objs !! k.
Proof. rewrite lookup_app_r by lia. f_equal. lia. Qed.

Lemma alloc_app h objs o out pool c :
  alloc o (mkWorld (h ++ objs) out pool c)
  = (Returned (length h + length objs),
     mkWorld (h ++ (objs ++ [o])) out pool c).
Proof. unfold alloc. cbn. by rewrite length_app, <- app_assoc. Qed.

Lemma setattr_first h cls dict rest a v out pool c :
  setattr (length h) a v (mkWorld (h ++ Instance cls dict :: rest) out pool c)
  = (Returned tt,
     mkWorld (h ++ Instance cls (<[a := v]> dict) :: rest) out pool c).
Proof.
  unfold setattr. cbn.
  rewrite <- (Nat.add_0_r (length h)), heap_lookup_new. cbn.
  by rewrite insert_app_r.
Qed.

Lemma attr_first h cls dict rest a out pool c :
  attr (mkWorld (h ++ Instance cls dict :: rest) out pool c) (length h) a
  = dict !! a.
Proof.
  unfold attr. cbn.
  by rewrite <- (Nat.add_0_r (length h)), heap_lookup_new.
Qed.

Lemma getattr_first h cls dict rest a v out pool c :
  dict !! a = Some v →
  getattr (length h) a (mkWorld (h ++ Instance cls dict :: rest) out pool c)
  = (Returned v, mkWorld (h ++ Instance cls dict :: rest) out pool c).
Proof. intros E. unfold getattr. by rewrite attr_first, E. Qed.

Lemma agent_dict_lookup n name :
  agent_dict n name !! "name" = Some (VStr name)
  ∧ agent_dict n name !! "hook" = Some (VRef (n + 1))
  ∧ agent_dict n name !! "source" = Some (VRef (n + 2))
  ∧ agent_dict n name !! "response_handler" = Some (VRef (n + 3)).
Proof. unfold agent_dict. repeat split; by simplify_map_eq. Qed.

(** What the call MyAgent(name) does to any world. *)
Lemma new_spec name w :
  MyAgent.new name w
  = (Returned (length (heap w)),
     mkWorld (heap w ++ agent_objs (length (heap w))
                                   (ulid_pool w (ulid_calls w)) name)
             (stdout w) (ulid_pool w) (S (ulid_calls w))).
Proof.
  destruct w as [h out pool c]. cbn [heap stdout ulid_pool ulid_calls].
  unfold MyAgent.new, MyAgent.__init__, AbstractAgent.__init__.
  rewrite <- (app_nil_r h) at 1.
  erewrite bind_returned by apply alloc_app. cbn [length app]. rewrite Nat.add_0_r.
  erewrite bind_returned; cycle 1.
  { erewrite bind_returned; cycle 1.
    { erewrite bind_returned by apply setattr_first. reflexivity. }
    erewrite bind_returned by apply (alloc_app h [_]).
    erewrite bind_returned by apply setattr_first.
    erewrite bind_returned by reflexivity.
    cbn [heap stdout ulid_pool ulid_calls].
    erewrite bind_returned by apply (alloc_app h [_; _]).
    erewrite bind_returned by apply setattr_first.
    erewrite bind_returned; cycle 1.
    { apply getattr_first. by simplify_map_eq. }
    erewrite bind_returned; cycle 1.
    { apply getattr_first. by simplify_map_eq. }
    erewrite bind_returned by apply (alloc_app h [_; _; _]).
    erewrite bind_returned by apply setattr_first.
    reflexivity. }
  cbn. reflexivity.
Qed.

(** ** Text and lines *)

Lemma append_cons c (s t : string) : String c s +:+ t = String c (s +:+ t).
Proof. reflexivity. Qed.

Lemma append_nil_r (s : string) : s +:+ "" = s.
Proof.
  induction s as [|c s IH]; [done|]. by rewrite append_cons, IH.
Qed.

Lemma append_assoc (s1 s2 s3 : string) :
  (s1 +:+ s2) +:+ s3 = s1 +:+ (s2 +:+ s3).
Proof.
  induction s1 as [|c s1 IH]; [done|]. by rewrite !append_cons, IH.
Qed.

Lemma count_LF_app (s1 s2 : string) :
  count_LF (s1 +:+ s2) = count_LF s1 + count_LF s2.
Proof.
  induction s1 as [|c s1 IH]; [done|].
  rewrite append_cons. simpl. rewrite IH. lia.
Qed.




(** ** The methods, step by step *)

Lemma print_spec s w :
  print s w
  = (Returned tt,
     mkWorld (heap w) (stdout w +:+ s +:+ String LF "")
             (ulid_pool w) (ulid_calls w)).
Proof. reflexivity. Qed.

Lemma assist_spec self query w :
  MyAgent.assist self query w
  = (Returned VNone,
     mkWorld (heap w)
             (stdout w +:+ ("Assisting with query: " +:+ query) +:+ String LF "")
             (ulid_pool w) (ulid_calls w)).
Proof. reflexivity. Qed.

Lemma launch_spec self w :
  MyAgent.launch self w
  = (Returned VNone,
     mkWorld (heap w) (stdout w +:+ "Agent launched" +:+ String LF "")
             (ulid_pool w) (ulid_calls w)).
Proof. reflexivity. Qed.

Lemma main_spec w :
  main w
  = (Returned VNone,
     mkWorld (heap w ++ agent_objs (length (heap w))
                                   (ulid_pool w (ulid_calls w)) "MyAgent")
             (stdout w +:+ "Agent launched" +:+ String LF "")
             (ulid_pool w) (S (ulid_calls w))).
Proof.
  unfold main. erewrite bind_returned by apply new_spec.
  erewrite bind_returned by apply launch_spec. reflexivity.
Qed.

(** The attributes of a newly built agent. *)
Lemma new_attr name w a :
  attr (exec (MyAgent.new name) w) (length (heap w)) a
  = agent_dict (length (heap w)) name !! a.
Proof. unfold exec. rewrite new_spec. cbn [snd]. apply attr_first. Qed.

Lemma new_heap_lookup name w k :
  heap (exec (MyAgent.new name) w) !! (length (heap w) + k)
  = agent_objs (length (heap w)) (ulid_pool w (ulid_calls w)) name !! k.
Proof. unfold exec. rewrite new_spec. cbn [snd heap]. apply heap_lookup_new. Qed.

Lemma new_outcome name w :
  outcome (MyAgent.new name) w = Returned (length (heap w)).
Proof. unfold outcome. by rewrite new_spec. Qed.

Lemma new_identity name w :
  identity_of (exec (MyAgent.new name) w) (length (heap w))
  = Some (ulid_pool w (ulid_calls w), name).
Proof.
  unfold identity_of. rewrite new_attr.
  destruct (agent_dict_lookup (length (heap w)) name) as (_ & _ & -> & _).
  by rewrite new_heap_lookup.
Qed.

(** ** The claims *)

(** C1, as the script is written: run as a program, whatever the command
    line, the script exits with status 0 and adds exactly one line to
    standard output, the fixed text "Agent launched"; started by a fresh
    interpreter, that line is the whole output. *)
Theorem run_script_output argv w :
  (run_script argv w).1 = 0
  ∧ stdout (run_script argv w).2
    = stdout w +:+ "Agent launched" +:+ String LF ""
  ∧ lines ("Agent launched" +:+ String LF "") = ["Agent launched"]
  ∧ (stdout w = "" →
     lines (stdout (run_script argv w).2) = ["Agent launched"]).
Proof.
  unfold run_script. rewrite main_spec. cbn [fst snd stdout].
  repeat split; try done.
  intros ->. reflexivity.
Qed.

Lemma run_script_output_witness :
  stdout sample_world = ""
  ∧ lines (stdout (run_script ["launch_agent_python.py"] sample_world).2)
    = ["Agent launched"].
Proof.
  split; [reflexivity|].
  apply (run_script_output ["launch_agent_python.py"] sample_world).
  reflexivity.
Defined.

(** C1, as the spec states it, fails: the program writes one line, not
    two. *)
Lemma run_script_not_two_lines :
  (run_script [] sample_world).1 = 0
  ∧ lines (stdout (run_script [] sample_world).2) = ["Agent launched"]
  ∧ length (lines (stdout (run_script [] sample_world).2)) ≠ 2.
Proof. vm_compute. repeat split; congruence. Qed.

(** C2: every call of launch(), on any agent and in any world, adds
    exactly the one line "Agent launched" to standard output; the text
    added depends on nothing. *)
Theorem launch_output self w :
  stdout (exec (MyAgent.launch self) w)
  = stdout w +:+ "Agent launched" +:+ String LF ""
  ∧ lines ("Agent launched" +:+ String LF "") = ["Agent launched"].
Proof. unfold exec. by rewrite launch_spec. Qed.




(** C4: constructing the agent with the name N gives an Identity whose
    name is N and whose id is the next identifier of the generator; under
    the generator's contract that id is not empty, and two agents
    constructed one after the other have different ids. *)
Theorem identity_of_new N1 N2 w :
  ulid_contract (ulid_pool w) →
  let w1 := exec (MyAgent.new N1) w in
  let w2 := exec (MyAgent.new N2) w1 in
  ∃ a1 a2 id1 id2,
    outcome (MyAgent.new N1) w = Returned a1
    ∧ outcome (MyAgent.new N2) w1 = Returned a2
    ∧ identity_of w1 a1 = Some (id1, N1)
    ∧ identity_of w2 a2 = Some (id2, N2)
    ∧ id1 ≠ "" ∧ id2 ≠ "" ∧ id1 ≠ id2.
Proof.
  intros [Hne Huniq] w1 w2.
  exists (length (heap w)), (length (heap w1)),
    (ulid_pool w (ulid_calls w)), (ulid_pool w1 (ulid_calls w1)).
  split; [apply new_outcome|]. split; [apply new_outcome|].
  split; [apply new_identity|]. split; [apply new_identity|].
  assert (ulid_pool w1 = ulid_pool w ∧ ulid_calls w1 = S (ulid_calls w))
    as [-> ->].
  { unfold w1, exec. by rewrite new_spec. }
  split; [apply Hne|]. split; [apply Hne|].
  apply Huniq. lia.
Qed.

Lemma sample_ulid_length n : String.length (sample_ulid n) = n + 2.
Proof.
  induction n as [|n IH]; [done|]. simpl sample_ulid.
  assert (L : ∀ s t, String.length (s +:+ t) = String.length s + String.length t).
  { intros s t. induction s as [|c s IHs]; [done|].
    rewrite append_cons. simpl. by rewrite IHs. }
  rewrite L, IH. simpl. lia.
Qed.

Lemma sample_ulid_contract : ulid_contract sample_ulid.
Proof.
  split.
  - intros n E. apply (f_equal String.length) in E.
    rewrite sample_ulid_length in E. simpl in E. lia.
  - intros m n Hmn E. apply (f_equal String.length) in E.
    rewrite !sample_ulid_length in E. lia.
Qed.

Lemma identity_of_new_witness :
  ulid_contract (ulid_pool sample_world)
  ∧ ∃ a1 a2 id1 id2,
      outcome (MyAgent.new "MyAgent") sample_world = Returned a1
      ∧ outcome (MyAgent.new "Other")
                (exec (MyAgent.new "MyAgent") sample_world) = Returned a2
      ∧ identity_of (exec (MyAgent.new "MyAgent") sample_world) a1
        = Some (id1, "MyAgent")
      ∧ identity_of (exec (MyAgent.new "Other")
                          (exec (MyAgent.new "MyAgent") sample_world)) a2
        = Some (id2, "Other")
      ∧ id1 ≠ "" ∧ id2 ≠ "" ∧ id1 ≠ id2.
Proof.
  split; [exact sample_ulid_contract|].
  apply (identity_of_new "MyAgent" "Other" sample_world).
  exact sample_ulid_contract.
Defined.

(** C5: a call of assist or of launch leaves the heap as it was, so every
    attribute of every agent (name, hook, source, response handler) reads
    after the call what it read before; the generator is not touched
    either. *)
Theorem methods_frame self query w a :
  heap (exec (MyAgent.assist self query) w) = heap w
  ∧ heap (exec (MyAgent.launch self) w) = heap w
  ∧ attr (exec (MyAgent.assist self query) w) self a = attr w self a
  ∧ attr (exec (MyAgent.launch self) w) self a = attr w self a
  ∧ ulid_calls (exec (MyAgent.assist self query) w) = ulid_calls w
  ∧ ulid_calls (exec (MyAgent.launch self) w) = ulid_calls w.
Proof. unfold exec. rewrite assist_spec, launch_spec. done. Qed.

(** ** The methods on str *)

Ltac cases_N :=
  repeat match goal with
  | H : context [(?a <? ?b)%N] |- _ => destruct (N.ltb_spec a b)
  | H : context [(?a <=? ?b)%N] |- _ => destruct (N.leb_spec a b)
  | |- context [(?a <? ?b)%N] => destruct (N.ltb_spec a b)
  | |- context [(?a <=? ?b)%N] => destruct (N.leb_spec a b)
  end.

Lemma utf8_char_scalar c : scalar c = true → is_Some (utf8_char c).
Proof.
  unfold scalar, utf8_char. intros H.
  cases_N; simpl in *; try done; try lia.
Qed.

Lemma utf8_char_not_scalar c : scalar c = false → utf8_char c = None.
Proof.
  unfold scalar, utf8_char. intros H.
  cases_N; simpl in *; try done; try lia.
Qed.

Lemma utf8_encode_from_app pos (t1 t2 : str) :
  utf8_encode_from pos (t1 ++ t2)
  = match utf8_encode_from pos t1 with
    | inl s1 =>
        match utf8_encode_from (pos + length t1) t2 with
        | inl s2 => inl (s1 +:+ s2)
        | inr e => inr e
        end
    | inr e => inr e
    end.
Proof.
  revert pos. induction t1 as [|c t1 IH]; intros pos; simpl.
  - rewrite Nat.add_0_r. by destruct (utf8_encode_from pos t2).
  - destruct (utf8_char c) as [b|]; [|done].
    rewrite IH. replace (S pos + length t1) with (pos + S (length t1)) by lia.
    destruct (utf8_encode_from (S pos) t1) as [s1|e]; [|done].
    destruct (utf8_encode_from (pos + S (length t1)) t2) as [s2|e]; [|done].
    by rewrite append_assoc.
Qed.

Lemma utf8_encode_from_scalar pos (t : str) :
  Forall (λ c, scalar c = true) t → ∃ s, utf8_encode_from pos t = inl s.
Proof.
  intros Ht. revert pos. induction Ht as [|c t Hc Ht IH]; intros pos; simpl.
  - by exists "".
  - destruct (utf8_char_scalar c Hc) as [b ->].
    destruct (IH (S pos)) as [s ->]. by eexists.
Qed.

Lemma utf8_encode_from_pos pos pos' (t : str) s :
  utf8_encode_from pos t = inl s → utf8_encode_from pos' t = inl s.
Proof.
  revert pos pos' s. induction t as [|c t IH]; intros pos pos' s; simpl.
  - done.
  - destruct (utf8_char c) as [b|]; [|done].
    destruct (utf8_encode_from (S pos) t) as [s1|e] eqn:E; [|done].
    intros [= <-]. by rewrite (IH _ (S pos') _ E).
Qed.

Lemma utf8_encode_from_first pos (pre : str) c post :
  Forall (λ c, scalar c = true) pre → scalar c = false →
  utf8_encode_from pos (pre ++ c :: post) = inr (pos + length pre).
Proof.
  intros Hpre Hc. rewrite utf8_encode_from_app.
  destruct (utf8_encode_from_scalar pos pre Hpre) as [s ->].
  simpl. by rewrite (utf8_char_not_scalar c Hc).
Qed.

(** On a query that the stream encodes, the method on str is the method
    on the encoded query. *)
Lemma assist_encoded self (query : str) q w :
  utf8_encode query = inl q →
  OnStr.assist self query w = MyAgent.assist self q w.
Proof.
  intros Hq. unfold OnStr.assist, print_str, utf8_encode.
  rewrite utf8_encode_from_app.
  change (utf8_encode_from 0 (codepoints "Assisting with query: "))
    with (@inl string nat "Assisting with query: ").
  rewrite (utf8_encode_from_pos _ _ _ _ Hq). reflexivity.
Qed.

Lemma launch_encoded self w : OnStr.launch self w = MyAgent.launch self w.
Proof. reflexivity. Qed.

(** C6, as the code does it: assist returns None and raises nothing for
    every text query that standard output can encode, on the UTF-8 stream
    every str without a surrogate code point; then it does what is said of
    the encoded query above.  For a query with a code point the stream
    cannot encode, print raises UnicodeEncodeError out of assist at the
    position of that code point in the text printed, and nothing is
    written.  launch returns None and raises nothing: its text is an
    ASCII literal. *)
Theorem methods_outcome self (query : str) w :
  (Forall (λ c, scalar c = true) query →
   outcome (OnStr.assist self query) w = Returned VNone
   ∧ ∃ q, utf8_encode query = inl q
          ∧ OnStr.assist self query w = MyAgent.assist self q w)
  ∧ (∀ pre c post,
       query = pre ++ c :: post →
       Forall (λ c, scalar c = true) pre → scalar c = false →
       outcome (OnStr.assist self query) w
       = Raised (UnicodeEncodeError
                   (length (codepoints "Assisting with query: " ++ pre)))
       ∧ exec (OnStr.assist self query) w = w)
  ∧ outcome (OnStr.launch self) w = Returned VNone
  ∧ utf8_encode (codepoints "Agent launched") = inl "Agent launched".
Proof.
  split; [|split; [|split; reflexivity]].
  - intros Hq.
    destruct (utf8_encode_from_scalar 0 query Hq) as [q Eq].
    assert (E := assist_encoded self query q w Eq).
    split; [|by exists q].
    unfold outcome. by rewrite E, assist_spec.
  - intros pre c post -> Hpre Hc.
    assert (E : utf8_encode (codepoints "Assisting with query: "
                             ++ pre ++ c :: post)
                = inr (length (codepoints "Assisting with query: " ++ pre))).
    { unfold utf8_encode. rewrite app_assoc.
      rewrite utf8_encode_from_first; [done| |done].
      apply Forall_app_2; [|done].
      apply Forall_forall. intros x Hx.
      apply list_elem_of_fmap in Hx as (a & -> & _).
      unfold scalar. destruct a as [[] [] [] [] [] [] [] []]; reflexivity. }
    unfold outcome, exec, OnStr.assist, print_str.
    unfold mbind, Py_bind. by rewrite E.
Qed.

Lemma methods_outcome_witness :
  (Forall (λ c, scalar c = true) [104%N; 233%N]
   ∧ outcome (OnStr.assist 0 [104%N; 233%N]) sample_world = Returned VNone)
  ∧ ([104%N; 0xD800%N] = [104%N] ++ 0xD800%N :: []
     ∧ Forall (λ c, scalar c = true) [104%N]
     ∧ scalar 0xD800 = false
     ∧ outcome (OnStr.assist 0 [104%N; 0xD800%N]) sample_world
       = Raised (UnicodeEncodeError 23)).
Proof.
  assert (H1 : Forall (λ c, scalar c = true) [104%N; 233%N]).
  { repeat apply Forall_cons_2; by try apply Forall_nil. }
  assert (H2 : Forall (λ c, scalar c = true) [104%N]).
  { repeat apply Forall_cons_2; by try apply Forall_nil. }
  split.
  - split; [exact H1|].
    destruct (methods_outcome 0 [104%N; 233%N] sample_world) as (Hok & _).
    exact (proj1 (Hok H1)).
  - split; [reflexivity|]. split; [exact H2|]. split; [reflexivity|].
    destruct (methods_outcome 0 [104%N; 0xD800%N] sample_world)
      as (_ & Hraise & _).
    exact (proj1 (Hraise [104%N] 0xD800%N [] eq_refl H2 eq_refl)).
Defined.

(** C6, as the spec states it, fails: for the query made of the lone
    surrogate U+D800, a str, print raises UnicodeEncodeError out of
    assist, and nothing is written. *)
Lemma assist_raises_on_surrogate :
  outcome (OnStr.assist 0 [0xD800%N]) sample_world
  = Raised (UnicodeEncodeError 22)
  ∧ stdout (exec (OnStr.assist 0 [0xD800%N]) sample_world)
    = stdout sample_world.
Proof. split; reflexivity. Qed.

(** ** References to the Identity *)

Lemma elem_of_refs_Instance cls (dict : gmap string Val) l :
  l ∈ refs_of (Instance cls dict) ↔ ∃ a, dict !! a = Some (VRef l).
Proof.
  simpl. rewrite list_elem_of_bind. split.
  - intros (v & Hl & Hv). apply list_elem_of_fmap in Hv as ([a v'] & -> & Hav).
    apply elem_of_map_to_list in Hav. simpl in Hl.
    destruct v' as [| |l']; simpl in Hl; try by apply elem_of_nil in Hl.
    apply list_elem_of_singleton in Hl as ->. by exists a.
  - intros (a & Ha). exists (VRef l). split.
    + simpl. by apply list_elem_of_singleton.
    + apply list_elem_of_fmap. exists (a, VRef l). split; [done|].
      by apply elem_of_map_to_list.
Qed.

(** C7, as the code does it: after construction the Identity is referred
    to from exactly two places, the agent itself (its attribute source)
    and the response handler that was given it. *)
Theorem identity_holders N w :
  heap_closed (heap w) →
  let w' := exec (MyAgent.new N) w in
  ∃ self source hook handler id,
    outcome (MyAgent.new N) w = Returned self
    ∧ attr w' self "source" = Some (VRef source)
    ∧ attr w' self "response_handler" = Some (VRef handler)
    ∧ heap w' !! source = Some (Identity id N)
    ∧ heap w' !! handler = Some (DefaultResponseHandler (VRef source) hook)
    ∧ ∀ k, holds_ref (heap w') k source ↔ k = self ∨ k = handler.
Proof.
  intros Hclosed w'. pose (n := length (heap w)).
  destruct (agent_dict_lookup n N) as (_ & _ & Hsrc & Hrh).
  exists n, (n + 2), (VRef (n + 1)), (n + 3), (ulid_pool w (ulid_calls w)).
  subst n w'.
  split; [apply new_outcome|].
  split; [by rewrite new_attr|].
  split; [by rewrite new_attr|].
  split; [by rewrite new_heap_lookup|].
  split; [by rewrite new_heap_lookup|].
  intros k. unfold holds_ref. split.
  - intros (o & Hk & Hin).
    destruct (decide (k < length (heap w))) as [Hlt|Hge].
    + unfold exec in Hk. rewrite new_spec in Hk. cbn [snd heap] in Hk.
      rewrite lookup_app_l in Hk by done.
      unfold heap_closed in Hclosed. rewrite Forall_lookup in Hclosed.
      specialize (Hclosed _ _ Hk). rewrite Forall_forall in Hclosed.
      specialize (Hclosed _ Hin). lia.
    + replace k with (length (heap w) + (k - length (heap w))) in * by lia.
      rewrite new_heap_lookup in Hk.
      destruct (k - length (heap w)) as [|[|[|[|j]]]]; simplify_eq/=.
      * left. lia.
      * by apply elem_of_nil in Hin.
      * by apply elem_of_nil in Hin.
      * right. lia.
  - intros [->| ->].
    + exists (Instance "MyAgent" (agent_dict (length (heap w)) N)). split.
      * rewrite <- (Nat.add_0_r (length (heap w))) at 1.
        by rewrite new_heap_lookup.
      * apply elem_of_refs_Instance. by exists "source".
    + exists (DefaultResponseHandler (VRef (length (heap w) + 2))
                                     (VRef (length (heap w) + 1))). split.
      * by rewrite new_heap_lookup.
      * simpl. by left.
Qed.

Lemma identity_holders_witness :
  heap_closed (heap sample_world)
  ∧ ∃ self source hook handler id,
      outcome (MyAgent.new "MyAgent") sample_world = Returned self
      ∧ attr (exec (MyAgent.new "MyAgent") sample_world) self "source"
        = Some (VRef source)
      ∧ attr (exec (MyAgent.new "MyAgent") sample_world) self
             "response_handler" = Some (VRef handler)
      ∧ heap (exec (MyAgent.new "MyAgent") sample_world) !! source
        = Some (Identity id "MyAgent")
      ∧ heap (exec (MyAgent.new "MyAgent") sample_world) !! handler
        = Some (DefaultResponseHandler (VRef source) hook)
      ∧ ∀ k, holds_ref (heap (exec (MyAgent.new "MyAgent") sample_world))
                       k source ↔ k = self ∨ k = handler.
Proof.
  split; [by apply Forall_nil|].
  apply (identity_holders "MyAgent" sample_world). by apply Forall_nil.
Defined.

(** C7, as the spec states it, fails: after construction the agent itself
    (address 0) keeps a reference to its Identity (address 2) in the
    attribute source, besides the response handler (address 3). *)
Lemma identity_not_exclusively_owned :
  let w' := exec (MyAgent.new "MyAgent") sample_world in
  heap w' !! 2 = Some (Identity "ID" "MyAgent")
  ∧ heap w' !! 3 = Some (DefaultResponseHandler (VRef 2) (VRef 1))
  ∧ attr w' 0 "source" = Some (VRef 2)
  ∧ holders (heap w') 2 = [0; 3]
  ∧ ¬ (∀ k, holds_ref (heap w') k 2 → k = 3).
Proof.
  intros w'. repeat split; try by vm_compute.
  intros H. specialize (H 0).
  assert (Hh : holds_ref (heap w') 0 2).
  { assert (E : holders (heap w') 2 = [0; 3]) by by vm_compute.
    assert (0 ∈ holders (heap w') 2) as Hin by (rewrite E; left).
    unfold holders in Hin. by apply list_elem_of_filter in Hin as [? _]. }
  specialize (H Hh). discriminate.
Qed.

(** C8, as the code does it: the agent's name is the constructor's
    argument as it is, so it is non-empty when, and only when, that
    argument is; the one agent that main builds is named "MyAgent". *)
Theorem agent_name N w :
  let w' := exec (MyAgent.new N) w in
  (∃ self,
     outcome (MyAgent.new N) w = Returned self
     ∧ attr w' self "name" = Some (VStr N)
     ∧ (N ≠ "" → ∃ s, attr w' self "name" = Some (VStr s) ∧ s ≠ ""))
  ∧ attr (exec main w) (length (heap w)) "name" = Some (VStr "MyAgent").
Proof.
  intros w'. subst w'. split.
  - exists (length (heap w)). split; [apply new_outcome|].
    rewrite new_attr.
    destruct (agent_dict_lookup (length (heap w)) N) as (Hname & _).
    split; [done|]. intros HN. by exists N.
  - unfold exec. rewrite main_spec. cbn [snd]. unfold agent_objs.
    rewrite attr_first.
    by destruct (agent_dict_lookup (length (heap w)) "MyAgent") as (-> & _).
Qed.

Lemma agent_name_witness :
  "MyAgent" ≠ ""
  ∧ ∃ s, attr (exec (MyAgent.new "MyAgent") sample_world) 0 "name"
         = Some (VStr s) ∧ s ≠ "".
Proof.
  split; [discriminate|].
  destruct (agent_name "MyAgent" sample_world) as [(self & Hself & _ & H) _].
  injection Hself as <-. apply H. discriminate.
Defined.

(** C8, as the spec states it, fails: the constructor takes the empty
    name and the agent then holds it. *)
Lemma agent_name_may_be_empty :
  outcome (MyAgent.new "") sample_world = Returned 0
  ∧ attr (exec (MyAgent.new "") sample_world) 0 "name" = Some (VStr "").
Proof. split; by vm_compute. Qed.

(** C9: the hook of a newly constructed agent is a DefaultHook built from
    the empty sequence; it is also the hook the response handler is bound
    to. *)
Theorem hook_initially_empty N w :
  let w' := exec (MyAgent.new N) w in
  ∃ self hook handler source,
    outcome (MyAgent.new N) w = Returned self
    ∧ attr w' self "hook" = Some (VRef hook)
    ∧ heap w' !! hook = Some (DefaultHook [])
    ∧ attr w' self "response_handler" = Some (VRef handler)
    ∧ heap w' !! handler = Some (DefaultResponseHandler source (VRef hook)).
Proof.
  intros w'. subst w'.
  destruct (agent_dict_lookup (length (heap w)) N) as (_ & Hhook & _ & Hrh).
  exists (length (heap w)), (length (heap w) + 1), (length (heap w) + 3),
    (VRef (length (heap w) + 2)).
  split; [apply new_outcome|].
  rewrite !new_attr, !new_heap_lookup. done.
Qed.

(** C10: what construction followed by launch() writes does not depend on
    the agent's name, nor on its identity or on the rest of the world: two
    runs that start with the same standard output end with the same
    standard output. *)
Theorem launch_noninterference N1 N2 w1 w2 :
  stdout w1 = stdout w2 →
  stdout (exec (MyAgent.new N1 ≫= MyAgent.launch) w1)
  = stdout (exec (MyAgent.new N2 ≫= MyAgent.launch) w2).
Proof.
  intros E. unfold exec.
  erewrite !bind_returned by apply new_spec.
  rewrite !launch_spec. cbn [snd stdout]. by rewrite E.
Qed.

Lemma launch_noninterference_witness :
  stdout sample_world = stdout (mkWorld [DefaultHook []] "" (λ _, "X") 7)
  ∧ stdout (exec (MyAgent.new "MyAgent" ≫= MyAgent.launch) sample_world)
    = stdout (exec (MyAgent.new "" ≫= MyAgent.launch)
                   (mkWorld [DefaultHook []] "" (λ _, "X") 7)).
Proof.
  split; [reflexivity|].
  apply (launch_noninterference "MyAgent" "" sample_world
           (mkWorld [DefaultHook []] "" (λ _, "X") 7)).
  reflexivity.
Defined.

(** ** Further properties of the constructor *)

Lemma new_heap name w :
  heap (exec (MyAgent.new name) w)
  = heap w ++ agent_objs (length (heap w)) (ulid_pool w (ulid_calls w)) name.
Proof. unfold exec. by rewrite new_spec. Qed.

Lemma agent_dict_refs n name a l :
  agent_dict n name !! a = Some (VRef l) →
  l = n + 1 ∨ l = n + 2 ∨ l = n + 3.
Proof.
  unfold agent_dict. intros H.
  destruct (decide (a = "response_handler")) as [->|]; [simplify_map_eq; lia|].
  destruct (decide (a = "source")) as [->|]; [simplify_map_eq; lia|].
  destruct (decide (a = "hook")) as [->|]; [simplify_map_eq; lia|].
  destruct (decide (a = "name")) as [->|]; simplify_map_eq.
Qed.

Lemma attr_old (w w' : World) (rest : list Obj) self a :
  heap w' = heap w ++ rest → self < length (heap w) →
  attr w' self a = attr w self a.
Proof.
  intros E Hlt. unfold attr. by rewrite E, lookup_app_l.
Qed.



(** X2: construction keeps the heap closed: when no object refers to an
    unallocated address before the call MyAgent(name), none does after
    it. *)
Theorem new_heap_closed N w :
  heap_closed (heap w) → heap_closed (heap (exec (MyAgent.new N) w)).
Proof.
  intros Hclosed. rewrite new_heap. unfold heap_closed in *.
  set (id := ulid_pool w (ulid_calls w)).
  assert (Hlen : length (heap w ++ agent_objs (length (heap w)) id N)
                 = length (heap w) + 4) by (by rewrite length_app).
  apply Forall_app_2.
  - eapply Forall_impl; [exact Hclosed|]. intros o Ho. simpl in Ho.
    eapply Forall_impl; [exact Ho|]. intros l Hl. simpl in Hl.
    rewrite Hlen. lia.
  - unfold agent_objs in *.
    apply Forall_cons_2; [|apply Forall_cons_2; [|apply Forall_cons_2;
      [|apply Forall_cons_2; [|by apply Forall_nil]]]].
    + apply Forall_forall. intros l Hl.
      apply elem_of_refs_Instance in Hl as (a & Ha).
      apply agent_dict_refs in Ha. rewrite Hlen. lia.
    + by apply Forall_nil.
    + by apply Forall_nil.
    + change (refs_of (DefaultResponseHandler (VRef (length (heap w) + 2))
                                              (VRef (length (heap w) + 1))))
        with [length (heap w) + 2; length (heap w) + 1].
      apply Forall_cons_2; [cbv beta; rewrite Hlen; lia|].
      apply Forall_cons_2; [cbv beta; rewrite Hlen; lia|].
      by apply Forall_nil.
Qed.

Lemma new_heap_closed_witness :
  heap_closed (heap (exec (MyAgent.new "MyAgent") sample_world))
  ∧ heap_closed
      (heap (exec (MyAgent.new "Other")
                  (exec (MyAgent.new "MyAgent") sample_world))).
Proof.
  assert (H1 : heap_closed (heap (exec (MyAgent.new "MyAgent") sample_world))).
  { apply (new_heap_closed "MyAgent" sample_world). by apply Forall_nil. }
  split; [exact H1|].
  apply (new_heap_closed "Other" (exec (MyAgent.new "MyAgent") sample_world)).
  exact H1.
Defined.

(** X3: two agents constructed one after the other are separate: they
    are different objects, they share no hook, Identity or response
    handler, and constructing the second leaves every attribute of the
    first, and its Identity, as they were. *)
Theorem new_agents_separate N1 N2 w :
  let w1 := exec (MyAgent.new N1) w in
  let w2 := exec (MyAgent.new N2) w1 in
  let a1 := length (heap w) in
  let a2 := length (heap w1) in
  a1 ≠ a2
  ∧ (∀ a, attr w2 a1 a = attr w1 a1 a)
  ∧ identity_of w2 a1 = identity_of w1 a1
  ∧ (∀ x y l, attr w2 a1 x = Some (VRef l) → attr w2 a2 y ≠ Some (VRef l)).
Proof.
  intros w1 w2 a1 a2.
  assert (Hlen : length (heap w1) = length (heap w) + 4).
  { unfold w1. rewrite new_heap, length_app. done. }
  assert (Hold : ∀ a, attr w2 a1 a = attr w1 a1 a).
  { intros a. eapply attr_old; [apply new_heap|]. unfold a1. lia. }
  split; [unfold a1, a2; lia|]. split; [exact Hold|]. split.
  - unfold identity_of. rewrite Hold.
    assert (Hsrc : attr w1 a1 "source" = Some (VRef (length (heap w) + 2))).
    { unfold w1, a1. rewrite new_attr. apply agent_dict_lookup. }
    rewrite Hsrc. unfold w2. rewrite new_heap.
    by rewrite lookup_app_l by lia.
  - intros x y l H1 H2. rewrite Hold in H1.
    unfold w1, a1 in H1. rewrite new_attr in H1.
    unfold w2, a2 in H2. rewrite new_attr in H2.
    apply agent_dict_refs in H1. apply agent_dict_refs in H2. lia.
Qed.

Lemma new_agents_separate_witness :
  attr (exec (MyAgent.new "Other")
             (exec (MyAgent.new "MyAgent") sample_world)) 0 "hook"
  = Some (VRef 1)
  ∧ attr (exec (MyAgent.new "Other")
               (exec (MyAgent.new "MyAgent") sample_world)) 4 "hook"
    ≠ Some (VRef 1).
Proof.
  assert (H : attr (exec (MyAgent.new "Other")
                         (exec (MyAgent.new "MyAgent") sample_world)) 0 "hook"
              = Some (VRef 1)) by (by vm_compute).
  split; [exact H|].
  destruct (new_agents_separate "MyAgent" "Other" sample_world)
    as (_ & _ & _ & Hsep).
  exact (Hsep "hook" "hook" 1 H).
Defined.

(** ** Sequences of method calls *)

Lemma lines_from_line cur s rest :
  count_LF s = 0 →
  lines_from cur (s +:+ String LF rest) = (cur +:+ s) :: lines_from "" rest.
Proof.
  revert cur. induction s as [|c s IH]; intros cur Hs.
  - rewrite append_nil_r. done.
  - rewrite append_cons. simpl in *.
    destruct (Ascii.eqb c LF) eqn:Ec; [discriminate|].
    rewrite IH by done. by rewrite append_assoc.
Qed.

Lemma call_spec self c w :
  call self c w
  = (Returned VNone,
     mkWorld (heap w) (stdout w +:+ call_line c +:+ String LF "")
             (ulid_pool w) (ulid_calls w)).
Proof. destruct c; reflexivity. Qed.

Lemma count_LF_call_line c :
  single_line_call c → count_LF (call_line c) = 0.
Proof.
  destruct c as [query|]; simpl; [|done].
  intros Hq. by rewrite count_LF_app, Hq.
Qed.

(** X4: the methods can be called any number of times, in any order: a
    sequence of assist and launch calls, each on text that the stream has
    encoded, leaves the heap and the generator as they were, whatever the
    queries, and adds to standard output the texts of the calls, each with
    its terminator, in the order of the calls; when no query has a line
    feed in it, that is exactly one line per call. *)
Theorem calls_output self cs w :
  heap (exec (calls self cs) w) = heap w
  ∧ ulid_calls (exec (calls self cs) w) = ulid_calls w
  ∧ stdout (exec (calls self cs) w) = stdout w +:+ calls_text cs
  ∧ (Forall single_line_call cs → lines (calls_text cs) = call_line <$> cs).
Proof.
  split; [|split; [|split]].
  - revert w. induction cs as [|c cs IH]; intros w; [done|].
    unfold exec in *. simpl calls.
    erewrite bind_returned by apply call_spec. by rewrite IH.
  - revert w. induction cs as [|c cs IH]; intros w; [done|].
    unfold exec in *. simpl calls.
    erewrite bind_returned by apply call_spec. by rewrite IH.
  - revert w. induction cs as [|c cs IH]; intros w.
    + simpl. by rewrite append_nil_r.
    + unfold exec in *. simpl calls.
      erewrite bind_returned by apply call_spec. rewrite IH.
      cbn [stdout calls_text]. by rewrite !append_assoc.
  - intros Hcs. induction Hcs as [|c cs Hc Hcs IH]; [done|].
    unfold lines in *. cbn [calls_text].
    rewrite lines_from_line by by apply count_LF_call_line.
    by rewrite IH.
Qed.

Lemma calls_output_witness :
  Forall single_line_call [Launch; Assist "hello"; Launch]
  ∧ lines (calls_text [Launch; Assist "hello"; Launch])
    = call_line <$> [Launch; Assist "hello"; Launch].
Proof.
  assert (H : Forall single_line_call [Launch; Assist "hello"; Launch]).
  { repeat constructor. }
  split; [exact H|].
  destruct (calls_output 0 [Launch; Assist "hello"; Launch] sample_world)
    as (_ & _ & _ & Hlines).
  exact (Hlines H).
Defined.

(** ** The initialiser on an instance that is already there *)









(** X7: the constructor builds no cycle through the agent: in a closed
    heap, after MyAgent(name) no object, neither the hook, the Identity
    and the response handler it has just made nor any older object, keeps
    a reference to the new agent. *)
Theorem new_no_back_reference N w :
  heap_closed (heap w) →
  ∀ k, ¬ holds_ref (heap (exec (MyAgent.new N) w)) k (length (heap w)).
Proof.
  intros Hclosed k (o & Hk & Hin).
  destruct (decide (k < length (heap w))) as [Hlt|Hge].
  - rewrite new_heap, lookup_app_l in Hk by done.
    unfold heap_closed in Hclosed. rewrite Forall_lookup in Hclosed.
    specialize (Hclosed _ _ Hk). rewrite Forall_forall in Hclosed.
    specialize (Hclosed _ Hin). lia.
  - replace k with (length (heap w) + (k - length (heap w))) in Hk by lia.
    rewrite new_heap_lookup in Hk.
    destruct (k - length (heap w)) as [|[|[|[|j]]]]; simplify_eq/=.
    + apply (proj1 (elem_of_refs_Instance "MyAgent" _ _)) in Hin
        as (a & Ha).
      apply agent_dict_refs in Ha. lia.
    + by apply elem_of_nil in Hin.
    + by apply elem_of_nil in Hin.
    + apply elem_of_cons in Hin as [?|Hin]; [lia|].
      apply list_elem_of_singleton in Hin. lia.
Qed.

Lemma new_no_back_reference_witness :
  heap_closed (heap sample_world)
  ∧ ∀ k, ¬ holds_ref (heap (exec (MyAgent.new "MyAgent") sample_world)) k 0.
Proof.
  assert (H : heap_closed (heap sample_world)) by (by apply Forall_nil).
  split; [exact H|].
  exact (new_no_back_reference "MyAgent" sample_world H).
Defined.
